(** * SpellBound: the puzzle assignment state machine

    A shallow embedding of the game logic of [spellbound-kids/App.tsx]
    (the React component [App]) and of the puzzle validation of
    [spellbound-kids/services/geminiService.ts], with the properties of
    its specification stated and settled against it.

    Modelling conventions.
    - A JS [number] used as a slot index is an integer ([Z]); the JSON
      schema of the puzzle service declares the indices INTEGER.
    - A JS [string] is a [string] of 8-bit characters; [word[i]] is the
      one-character string at index [i], or [undefined].
    - [undefined] and [null] are [None].  A value is truthy when it is a
      non-empty string.
    - [Record<number, string>] is a [gmap Z string].
    - The React state of the component ([gameState], [difficulty],
      [feedback], [selectedChoiceId]) is one record, [App]; every event
      handler is a function from the state at the time of the event to
      the state after it.  [setGameState (prev => ..)] is [setGameState]
      applied to a function, as in the source. *)

From Stdlib Require Import Ascii String.
From stdpp Require Import gmap strings list fin_maps pretty sorting.

(** ** types.ts *)

Inductive Difficulty := EASY | HARD.

Record PuzzleData := mkPuzzleData {
  word : string;
  missingIndices : list Z;
  hint : string
}.

(** [char] is declared [string]; [startNewRound] stores [word[i]] in it,
    which is [undefined] when [i] is not an index of the word. *)
Module Choice.
Record t := mk {
  id : string;
  char : option string
}.
End Choice.

Module Status.
Inductive t := idle | loading | playing | success | error.
End Status.

Module Feedback.
Inductive t := none | correct | incorrect.
End Feedback.

Record GameState := mkGameState {
  status : Status.t;
  puzzle : option PuzzleData;
  imageUrl : option string;
  choices : list Choice.t;
  userAnswers : gmap Z string;
  errorMessage : option string
}.

(** The four [useState] cells of the component. *)
Record App := mkApp {
  gameState : GameState;
  difficulty : Difficulty;
  feedback : Feedback.t;
  selectedChoiceId : option string
}.

Global Instance Status_eq_dec : EqDecision Status.t.
Proof. solve_decision. Defined.
Global Instance Feedback_eq_dec : EqDecision Feedback.t.
Proof. solve_decision. Defined.
Global Instance Choice_eq_dec : EqDecision Choice.t.
Proof. solve_decision. Defined.
Global Instance PuzzleData_eq_dec : EqDecision PuzzleData.
Proof. solve_decision. Defined.

(** ** The state setters *)

Definition setGameState (f : GameState → GameState) (a : App) : App :=
  mkApp (f (gameState a)) (difficulty a) (feedback a) (selectedChoiceId a).

Definition setFeedback (fb : Feedback.t) (a : App) : App :=
  mkApp (gameState a) (difficulty a) fb (selectedChoiceId a).

Definition setSelectedChoiceId (sel : option string) (a : App) : App :=
  mkApp (gameState a) (difficulty a) (feedback a) sel.

(** The object spreads [{ ...prev, field: v }]. *)
Definition with_status (s : Status.t) (g : GameState) : GameState :=
  mkGameState s (puzzle g) (imageUrl g) (choices g) (userAnswers g)
    (errorMessage g).

Definition with_imageUrl (u : option string) (g : GameState) : GameState :=
  mkGameState (status g) (puzzle g) u (choices g) (userAnswers g)
    (errorMessage g).

Definition with_userAnswers (m : gmap Z string) (g : GameState) : GameState :=
  mkGameState (status g) (puzzle g) (imageUrl g) (choices g) m
    (errorMessage g).

(** The initial value of [useState<GameState>] and of the other cells. *)
Definition initialGameState : GameState :=
  mkGameState Status.idle None None [] ∅ None.

Definition initialApp : App :=
  mkApp initialGameState EASY Feedback.none None.

(** ** JS values *)

(** Truthiness of a [string | undefined | null]. *)
Definition truthy (v : option string) : bool :=
  match v with
  | Some s => negb (bool_decide (s = ""))
  | None => false
  end.

(** [w[i]]: the one-character string at index [i], [undefined] out of
    range. *)
Definition charAt (w : string) (i : Z) : option string :=
  if decide (0 ≤ i)%Z then
    match String.get (Z.to_nat i) w with
    | Some c => Some (String c "")
    | None => None
    end
  else None.

(** ** Interaction logic *)

(** [Object.keys(o)].  JS lists integer keys in ascending order; the
    loop of [placeLetter] gives the same object for every order (lemma
    [vacate_lookup]), so the enumeration of the map is taken. *)
Definition Object_keys (o : gmap Z string) : list Z := (map_to_list o).*1.

(** The [forEach] loop of [placeLetter] over the keys [ks]:
    [if (newAnswers[Number(key)] === choiceId) delete newAnswers[Number(key)]]. *)
Definition vacate (choiceId : string) (ks : list Z) (newAnswers : gmap Z string)
  : gmap Z string :=
  foldl (λ acc key,
           if decide (acc !! key = Some choiceId) then delete key acc else acc)
        newAnswers ks.

Definition placeLetter (slotIndex : Z) (choiceId : string) (a : App) : App :=
  let newAnswers := userAnswers (gameState a) in
  let newAnswers := vacate choiceId (Object_keys newAnswers) newAnswers in
  let newAnswers := <[slotIndex := choiceId]> newAnswers in
  setSelectedChoiceId None
    (setFeedback Feedback.none
       (setGameState (with_userAnswers newAnswers) a)).

Definition removeLetter (slotIndex : Z) (a : App) : App :=
  let newAnswers := delete slotIndex (userAnswers (gameState a)) in
  setFeedback Feedback.none (setGameState (with_userAnswers newAnswers) a).

(** [handleDrop]: [data] is [e.dataTransfer.getData("text/plain")]. *)
Definition handleDrop (slotIndex : Z) (data : string) (a : App) : App :=
  if truthy (Some data) then placeLetter slotIndex data a else a.

(** [Object.values(gameState.userAnswers).includes(choiceId)]. *)
Definition isUsed (choiceId : string) (g : GameState) : bool :=
  bool_decide (choiceId ∈ (map_to_list (userAnswers g)).*2).

Definition handleChoiceClick (choiceId : string) (a : App) : App :=
  if isUsed choiceId (gameState a) then a
  else if decide (selectedChoiceId a = Some choiceId)
       then setSelectedChoiceId None a
       else setSelectedChoiceId (Some choiceId) a.

Definition handleSlotClick (slotIndex : Z) (a : App) : App :=
  if truthy (selectedChoiceId a) then
    (* in this branch [selectedChoiceId] is a string *)
    placeLetter slotIndex (default "" (selectedChoiceId a)) a
  else if truthy (userAnswers (gameState a) !! slotIndex) then
    removeLetter slotIndex a
  else a.

(** ** checkAnswer *)

(** [missingIndices.every(idx => gameState.userAnswers[idx])]. *)
Definition allFilled (p : PuzzleData) (g : GameState) : bool :=
  forallb (λ idx, truthy (userAnswers g !! idx)) (missingIndices p).

(** [gameState.choices.find(c => c.id === choiceId)]; [choiceId] is
    [gameState.userAnswers[index]], possibly [undefined]. *)
Definition findChoice (cs : list Choice.t) (choiceId : option string)
  : option Choice.t :=
  List.find (λ c, bool_decide (Some (Choice.id c) = choiceId)) cs.

(** [choice?.char]. *)
Definition charOf (choice : option Choice.t) : option string :=
  match choice with
  | Some c => Choice.char c
  | None => None
  end.

Definition isCorrect (p : PuzzleData) (g : GameState) : bool :=
  forallb (λ index,
             let choiceId := userAnswers g !! index in
             let choice := findChoice (choices g) choiceId in
             bool_decide (charOf choice = charAt (word p) index))
          (missingIndices p).

Definition checkAnswer (a : App) : App :=
  match puzzle (gameState a) with
  | None => a
  | Some p =>
      if negb (allFilled p (gameState a)) then setFeedback Feedback.incorrect a
      else if isCorrect p (gameState a)
           then setGameState (with_status Status.success)
                  (setFeedback Feedback.correct a)
           else setFeedback Feedback.incorrect a
  end.

(** ** services/geminiService.ts: generatePuzzle *)

(** [String.prototype.toUpperCase] on the letters a-z. *)
Definition toUpperCase_ascii (c : ascii) : ascii :=
  let n := nat_of_ascii c in
  if (97 <=? n) && (n <=? 122) then ascii_of_nat (n - 32) else c.

Fixpoint toUpperCase (s : string) : string :=
  match s with
  | EmptyString => EmptyString
  | String c s' => String (toUpperCase_ascii c) (toUpperCase s')
  end.

(** The validation of the reply of the model:
    [data.word = data.word.toUpperCase();
     data.missingIndices = data.missingIndices.filter(i => i >= 0 && i < data.word.length)]. *)
Definition validate (data : PuzzleData) : PuzzleData :=
  let w := toUpperCase (word data) in
  mkPuzzleData w
    (filter (λ i, 0 ≤ i < Z.of_nat (String.length w))%Z (missingIndices data))
    (hint data).

Section Round.

(** [constants.ts] is not part of the sources: the alphabet of the
    distractors and the list of fallback puzzles are parameters. *)
Variable ALPHABET : string.
Variable FALLBACK_PUZZLES : list PuzzleData.

(** The sources of randomness and time of one round:
    [draw i] is [Math.floor(Math.random() * ALPHABET.length)] at iteration
    [i] of the distractor loop, [now i] is [Date.now()] (milliseconds)
    when choice [i] is created, and [shuffle] is
    [.sort(() => Math.random() - 0.5)], which rearranges the array it is
    given (hypothesis [shuffle_perm] of the properties below). *)
Variable draw : nat → nat.
Variable now : nat → N.
Variable shuffle : list Choice.t → list Choice.t.

(** [generatePuzzle].  The difficulty only selects the prompt sent to
    the model.  [apiKey] is [process.env.API_KEY || ''];
    [response] is [Some data] when the model answered with a text that
    parses to a [PuzzleData], and [None] when the request, the empty-text
    test or [JSON.parse] throws; [k] is the random index into
    [FALLBACK_PUZZLES].  The result is [None] when [FALLBACK_PUZZLES[k]]
    is [undefined]. *)
Definition generatePuzzle (d : Difficulty) (apiKey : string)
    (response : option PuzzleData) (k : nat) : option PuzzleData :=
  if negb (truthy (Some apiKey)) then FALLBACK_PUZZLES !! k
  else match response with
       | Some data => Some (validate data)
       | None => FALLBACK_PUZZLES !! k
       end.

(** ** startNewRound *)

(** [puzzle.missingIndices.map(i => puzzle.word[i])]. *)
Definition correctLetters (p : PuzzleData) : list (option string) :=
  map (charAt (word p)) (missingIndices p).

(** [const lettersNeeded = 6 - correctLetters.length]. *)
Definition lettersNeeded (p : PuzzleData) : Z :=
  (6 - Z.of_nat (length (correctLetters p)))%Z.

(** [for (let i = 0; i < lettersNeeded; i++) distractors.push(ALPHABET[..])]:
    [n] is the number of iterations left. *)
Fixpoint pushDistractors (n i : nat) (distractors : list (option string))
  : list (option string) :=
  match n with
  | O => distractors
  | S n' =>
      pushDistractors n' (S i)
        (distractors ++ [charAt ALPHABET (Z.of_nat (draw i))])
  end.

Definition distractors (p : PuzzleData) : list (option string) :=
  pushDistractors (Z.to_nat (lettersNeeded p)) 0 [].

Definition poolChars (p : PuzzleData) : list (option string) :=
  correctLetters p ++ distractors p.

(** [`choice-${i}-${Date.now()}`]. *)
Definition choiceId (i : nat) : string :=
  "choice-" +:+ pretty i +:+ "-" +:+ pretty (now i).

(** [poolChars.map((char, i) => ({ id, char }))], before the shuffle. *)
Definition labelled (p : PuzzleData) : list Choice.t :=
  imap (λ i char, Choice.mk (choiceId i) char) (poolChars p).

Definition buildChoices (p : PuzzleData) : list Choice.t :=
  shuffle (labelled p).

(** The synchronous part of [startNewRound], up to the [await]. *)
Definition startNewRound_begin (a : App) : App :=
  setSelectedChoiceId None
    (setFeedback Feedback.none
       (setGameState
          (λ prev, mkGameState Status.loading None None [] ∅
                     (errorMessage prev))
          a)).

(** The part after [await generatePuzzle(difficulty)], run when the
    promise settles with [r].  With [r = None] ([undefined])
    [puzzle.missingIndices] throws and the [catch] block runs.  The
    illustration request started here ends in [imageResolved]. *)
Definition startNewRound_resume (r : option PuzzleData) (a : App) : App :=
  match r with
  | Some p =>
      let choices := buildChoices p in
      setGameState (with_status Status.playing)
        (setGameState
           (λ prev, mkGameState (status prev) (Some p) (imageUrl prev)
                      choices ∅ (errorMessage prev))
           a)
  | None =>
      setGameState
        (λ prev, mkGameState Status.error (puzzle prev) (imageUrl prev)
                   (choices prev) (userAnswers prev)
                   (Some "Oops! Something went wrong."))
        a
  end.

End Round.

(** The callback of [generatePuzzleImage(puzzle.word).then(url => ..)]:
    [if (url) setGameState(prev => ({ ...prev, imageUrl: url }))]. *)
Definition imageResolved (url : option string) (a : App) : App :=
  if truthy url then setGameState (with_imageUrl url) a else a.

(** ** services/geminiService.ts: generatePuzzleImage *)

(** The outcome of the [generateImages] request. *)
Inductive ImagenOutcome :=
  | ImagenBytes (base64ImageBytes : option string)
  | ImagenThrows.

Definition placeholderUrl (word : string) : string :=
  "https://picsum.photos/seed/" +:+ word +:+ "/500/500".

Definition generatePuzzleImage (apiKey word : string) (r : ImagenOutcome)
  : option string :=
  if negb (truthy (Some apiKey)) then Some (placeholderUrl word)
  else match r with
       | ImagenBytes b =>
           if truthy b
           then Some ("data:image/jpeg;base64," +:+ default "" b)
           else None
       | ImagenThrows => Some (placeholderUrl word)
       end.

(** ** Sequences of placements and removals *)

Inductive Op :=
  | Place (slot : Z) (tile : string)
  | Remove (slot : Z).

Definition apply_op (o : Op) (a : App) : App :=
  match o with
  | Place slot tile => placeLetter slot tile a
  | Remove slot => removeLetter slot a
  end.

Definition run (ops : list Op) (a : App) : App :=
  foldl (λ acc o, apply_op o acc) a ops.

(** The slots bound to a tile id. *)
Definition slotsOf (tile : string) (m : gmap Z string) : gset Z :=
  dom (filter (λ kv, kv.2 = tile) m).

(** No tile id is bound to two slots. *)
Definition single_slot (m : gmap Z string) : Prop :=
  ∀ s1 s2 t, m !! s1 = Some t → m !! s2 = Some t → s1 = s2.

(** ** Specification-level notions *)

(** A slot is bound when the assignment holds a tile id for it; tile ids
    are never the empty string (lemma [choiceId_nonempty]). *)
Definition bound (m : gmap Z string) (i : Z) : Prop :=
  ∃ t, m !! i = Some t ∧ t ≠ "".

(** Every missing position is bound. *)
Definition complete (p : PuzzleData) (m : gmap Z string) : Prop :=
  ∀ i, i ∈ missingIndices p → bound m i.

(** Resolving a tile id in the pool: the letter of the first tile that
    carries the id, and no letter ([undefined]) when no tile carries it. *)
Inductive resolves (cs : list Choice.t) (t : string) : option string → Prop :=
  | resolves_found pre c post :
      cs = pre ++ c :: post →
      Choice.id c = t →
      (∀ c', c' ∈ pre → Choice.id c' ≠ t) →
      resolves cs t (Choice.char c)
  | resolves_absent :
      (∀ c, c ∈ cs → Choice.id c ≠ t) →
      resolves cs t None.

(** The letter of the tile bound at [i] is exactly [word[i]]. *)
Definition letter_matches (p : PuzzleData) (g : GameState) (i : Z) : Prop :=
  ∃ t l, userAnswers g !! i = Some t ∧ resolves (choices g) t l ∧
         l = charAt (word p) i.

(** The conjunction over the missing positions. *)
Definition all_match (p : PuzzleData) (g : GameState) : Prop :=
  ∀ i, i ∈ missingIndices p → letter_matches p g i.

(** The comparison of the specification, which normalizes case on both
    sides before comparing: the tile letter and [word[i]] agree once
    upper-cased. *)
Definition spec_correct_normalized (p : PuzzleData) (g : GameState) : bool :=
  forallb (λ i,
             bool_decide
               (toUpperCase <$> charOf (findChoice (choices g)
                                          (userAnswers g !! i))
                = toUpperCase <$> charAt (word p) i))
          (missingIndices p).

(** The session has reached the solved state. *)
Definition solved (a : App) : bool :=
  bool_decide (status (gameState a) = Status.success).

(** ** The example round of the specification

    Word CAT, missing position 1, a pool with the tile [t1 = "A"] and
    the distractor [t2 = "X"]. *)
Definition CAT : PuzzleData := mkPuzzleData "CAT" [1%Z] "It purrs".

Definition example_pool : list Choice.t :=
  [Choice.mk "t1" (Some "A"); Choice.mk "t2" (Some "X")].

(** The round in the [playing] state with pool [cs] and assignment [m]. *)
Definition playing_CAT (cs : list Choice.t) (m : gmap Z string) : App :=
  mkApp (mkGameState Status.playing (Some CAT) None cs m None)
    EASY Feedback.none None.

(** ** The contracts of the specification *)

(** The letters of the correct tiles as the specification orders them:
    the letter at each missing position, in ascending position order. *)
Definition spec_correct_letters (p : PuzzleData) : list (option string) :=
  charAt (word p) <$> merge_sort Z.le (missingIndices p).

(** The contract of the Puzzle Source: the word is non-empty, and the
    missing positions are a non-empty set of valid indices. *)
Definition contract_ok (p : PuzzleData) : bool :=
  negb (bool_decide (word p = ""))
  && negb (bool_decide (missingIndices p = []))
  && forallb (λ i, bool_decide (0 ≤ i < Z.of_nat (String.length (word p)))%Z)
       (missingIndices p).

(** No dash occurs in a string. *)
Fixpoint no_dash (s : string) : Prop :=
  match s with
  | EmptyString => True
  | String c s' => c ≠ "-"%char ∧ no_dash s'
  end.

(** ** Example rounds *)

Definition LETTERS : string := "ABCDEFGHIJKLMNOPQRSTUVWXYZ".

(** Sources of randomness and time for the examples: the distractor
    draws are 3, 10, 17, .. modulo 26, the clock stands at one instant,
    and the shuffle reverses the array. *)
Definition example_draw (i : nat) : nat := (3 + 7 * i) mod 26.
Definition example_now (_ : nat) : N := 1700000000000%N.
Definition example_shuffle (l : list Choice.t) : list Choice.t := reverse l.

Definition DOG : PuzzleData := mkPuzzleData "DOG" [1%Z] "It barks".

(** The missing positions listed in descending order. *)
Definition CAT_20 : PuzzleData := mkPuzzleData "CAT" [2%Z; 0%Z] "It purrs".

(** Seven missing positions, one more than the pool size. *)
Definition RAINBOW : PuzzleData :=
  mkPuzzleData "RAINBOWS" [0; 1; 2; 3; 4; 5; 6]%Z "Colours in the sky".

(** A reply of the model whose only index is one past the end of the
    word. *)
Definition reply_off_by_one : PuzzleData :=
  mkPuzzleData "cat" [3%Z] "It purrs".

(** A round as the examples play it: the click, then the arrival of the
    puzzle [p]. *)
Definition play_round (p : PuzzleData) (a : App) : App :=
  startNewRound_resume LETTERS example_draw example_now example_shuffle
    (Some p) (startNewRound_begin a).

(** Round R (CAT) followed by round R+1 (DOG); the illustration of round
    R has not arrived yet. *)
Definition round_R : App := play_round CAT initialApp.
Definition round_R1 : App := play_round DOG round_R.

(** The illustration requested in round R: the image request is on its
    way while round R+1 starts, then fails, and the placeholder for the
    word of round R is the result. *)
Definition illustration_R : option string :=
  generatePuzzleImage "key" (word CAT) ImagenThrows.

(** ** The events of a round in play *)

Inductive Event :=
  | Drop (slot : Z) (data : string)
  | ChoiceClick (tile : string)
  | SlotClick (slot : Z)
  | CheckClick.

Definition handle (e : Event) (a : App) : App :=
  match e with
  | Drop slot data => handleDrop slot data a
  | ChoiceClick tile => handleChoiceClick tile a
  | SlotClick slot => handleSlotClick slot a
  | CheckClick => checkAnswer a
  end.

Definition handleAll (es : list Event) (a : App) : App :=
  foldl (λ acc e, handle e acc) a es.



(** ** The Check Answer button *)

(** The [disabled] attribute of the Check Answer button:
    [Object.keys(gameState.userAnswers).length !== missingIndices.length]. *)
Definition checkDisabled (p : PuzzleData) (g : GameState) : bool :=
  negb (bool_decide
          (length (Object_keys (userAnswers g)) = length (missingIndices p))).


(** ** The session *)

(** The Back button of the game screen and the Go Back button of the
    error screen: [setGameState(prev => ({ ...prev, status: 'idle' }))]. *)
Definition goBack (a : App) : App := setGameState (with_status Status.idle) a.

Definition setDifficulty (d : Difficulty) (a : App) : App :=
  mkApp (gameState a) d (feedback a) (selectedChoiceId a).

(** Everything that can happen to the component: the buttons, the
    events of a round in play, and the arrival of a puzzle (with the
    randomness and time of the round it starts) or of an illustration. *)
Inductive SessionEvent :=
  | Start
  | PuzzleArrives (r : option PuzzleData) (draw : nat → nat) (now : nat → N)
      (shuffle : list Choice.t → list Choice.t)
  | IllustrationArrives (url : option string)
  | Back
  | ChooseDifficulty (d : Difficulty)
  | Play (e : Event).

Definition session_step (ALPHABET : string) (e : SessionEvent) (a : App)
  : App :=
  match e with
  | Start => startNewRound_begin a
  | PuzzleArrives r draw now shuffle =>
      startNewRound_resume ALPHABET draw now shuffle r a
  | IllustrationArrives url => imageResolved url a
  | Back => goBack a
  | ChooseDifficulty d => setDifficulty d a
  | Play e => handle e a
  end.

Definition session (ALPHABET : string) (es : list SessionEvent) (a : App)
  : App :=
  foldl (λ acc e, session_step ALPHABET e acc) a es.

(** What holds of the component at every moment of a session. *)
Definition session_ok (a : App) : Prop :=
  (status (gameState a) = Status.playing
   ∨ status (gameState a) = Status.success →
   is_Some (puzzle (gameState a))) ∧
  (status (gameState a) = Status.error →
   errorMessage (gameState a) = Some "Oops! Something went wrong.") ∧
  single_slot (userAnswers (gameState a)) ∧
  (∀ t k, selectedChoiceId a = Some t →
          userAnswers (gameState a) !! k ≠ Some t).

(** * Properties *)

(** ** The assignment store *)

Lemma elem_of_Object_keys (o : gmap Z string) k :
  k ∈ Object_keys o ↔ is_Some (o !! k).
Proof.
  unfold Object_keys. rewrite list_elem_of_fmap. split.
  - intros [[k' v] [-> Hin]]. apply elem_of_map_to_list in Hin. by exists v.
  - intros [v Hv]. exists (k, v). split; [done|]. by apply elem_of_map_to_list.
Qed.

(** What the loop of [placeLetter] leaves at each key, for any list of
    keys it runs over. *)
Lemma vacate_lookup c ks (m : gmap Z string) k :
  vacate c ks m !! k =
    if decide (k ∈ ks ∧ m !! k = Some c) then None else m !! k.
Proof.
  revert m. induction ks as [|x ks IH]; intros m.
  - rewrite decide_False; [done|]. intros [H _]. by apply elem_of_nil in H.
  - change (vacate c (x :: ks) m)
      with (vacate c ks
              (if decide (m !! x = Some c) then delete x m else m)).
    rewrite IH. clear IH.
    destruct (decide (m !! x = Some c)) as [Hx|Hx].
    + destruct (decide (k = x)) as [->|Hne].
      * rewrite lookup_delete_eq.
        rewrite (decide_True (P := x ∈ x :: ks ∧ _)); [|split; [left|done]].
        by destruct (decide _).
      * rewrite lookup_delete_ne by done.
        destruct (decide (k ∈ ks ∧ _)) as [[? ?]|Hn].
        -- rewrite decide_True; [done|]. split; [by right|done].
        -- rewrite decide_False; [done|]. intros [Hin ?]. apply Hn.
           apply elem_of_cons in Hin as [?|?]; [done|]. by split.
    + destruct (decide (k ∈ ks ∧ _)) as [[? ?]|Hn].
      * rewrite decide_True; [done|]. split; [by right|done].
      * rewrite decide_False; [done|]. intros [Hin Hk]. apply Hn.
        apply elem_of_cons in Hin as [->|?]; [done|]. by split.
Qed.

Lemma vacate_keys_lookup c (m : gmap Z string) k :
  vacate c (Object_keys m) m !! k =
    if decide (m !! k = Some c) then None else m !! k.
Proof.
  rewrite vacate_lookup. destruct (decide (m !! k = Some c)) as [H|H].
  - rewrite decide_True; [done|]. split; [|done].
    apply elem_of_Object_keys. by rewrite H.
  - rewrite decide_False; [done|]. by intros [_ ?].
Qed.

(** [placeLetter] on the assignment: every slot of the tile is vacated,
    then the slot is bound. *)
Lemma placeLetter_lookup s c a k :
  userAnswers (gameState (placeLetter s c a)) !! k =
    if decide (k = s) then Some c
    else if decide (userAnswers (gameState a) !! k = Some c) then None
         else userAnswers (gameState a) !! k.
Proof.
  unfold placeLetter. simpl. destruct (decide (k = s)) as [->|Hne].
  - by rewrite lookup_insert_eq.
  - rewrite lookup_insert_ne by done. apply vacate_keys_lookup.
Qed.

Lemma placeLetter_filter s c a :
  userAnswers (gameState (placeLetter s c a)) =
    <[s := c]> (filter (λ kv, kv.2 ≠ c) (userAnswers (gameState a))).
Proof.
  apply map_eq. intros k. rewrite placeLetter_lookup.
  destruct (decide (k = s)) as [->|Hne].
  - by rewrite lookup_insert_eq.
  - rewrite lookup_insert_ne by done. rewrite map_lookup_filter.
    destruct (userAnswers (gameState a) !! k) as [v|] eqn:Hk; simpl.
    + destruct (decide (Some v = Some c)) as [[= ->]|Hv].
      * by rewrite option_guard_False by (simpl; congruence).
      * rewrite option_guard_True; [done|]. simpl. congruence.
    + done.
Qed.

Lemma removeLetter_lookup s a k :
  userAnswers (gameState (removeLetter s a)) !! k =
    if decide (k = s) then None else userAnswers (gameState a) !! k.
Proof.
  unfold removeLetter. simpl. case_decide as H.
  - subst. apply lookup_delete_eq.
  - by apply lookup_delete_ne.
Qed.

Lemma elem_of_slotsOf t (m : gmap Z string) k :
  k ∈ slotsOf t m ↔ m !! k = Some t.
Proof.
  unfold slotsOf. rewrite elem_of_dom. split.
  - intros [v Hv]. apply map_lookup_filter_Some in Hv as [Hv Ht].
    simpl in Ht. by subst.
  - intros Hk. exists t. by apply map_lookup_filter_Some.
Qed.

Lemma single_slot_size (m : gmap Z string) t :
  single_slot m → size (slotsOf t m) ≤ 1.
Proof.
  intros Hm. destruct (set_choose_or_empty (slotsOf t m)) as [[x Hx]|He].
  - assert (slotsOf t m ≡ {[x]}) as ->; [|by rewrite size_singleton].
    intros y. rewrite elem_of_singleton. split.
    + intros Hy. apply elem_of_slotsOf in Hx, Hy. by apply (Hm y x t).
    + intros ->. done.
  - apply size_empty_iff in He. lia.
Qed.

Lemma single_slot_empty : single_slot ∅.
Proof. intros s1 s2 t H. by rewrite lookup_empty in H. Qed.

Lemma placeLetter_single_slot s c a :
  single_slot (userAnswers (gameState a)) →
  single_slot (userAnswers (gameState (placeLetter s c a))).
Proof.
  intros Hm s1 s2 t. rewrite !placeLetter_lookup.
  repeat case_decide; try congruence; eauto.
Qed.

Lemma removeLetter_single_slot s a :
  single_slot (userAnswers (gameState a)) →
  single_slot (userAnswers (gameState (removeLetter s a))).
Proof.
  intros Hm s1 s2 t. rewrite !removeLetter_lookup.
  repeat case_decide; try congruence; eauto.
Qed.

Lemma run_single_slot ops a :
  single_slot (userAnswers (gameState a)) →
  single_slot (userAnswers (gameState (run ops a))).
Proof.
  revert a. induction ops as [|o ops IH]; intros a Ha; [done|].
  simpl. apply IH. destruct o; simpl.
  - by apply placeLetter_single_slot.
  - by apply removeLetter_single_slot.
Qed.

(** Placement alone puts the tile in exactly one slot, whatever the
    assignment was before. *)
Lemma placeLetter_slotsOf s c a :
  slotsOf c (userAnswers (gameState (placeLetter s c a))) = {[s]}.
Proof.
  apply set_eq. intros k. rewrite elem_of_slotsOf, elem_of_singleton.
  rewrite placeLetter_lookup. repeat case_decide; naive_solver.
Qed.

(** C1. After any finite sequence of place/remove operations applied to
    a state whose assignment is empty, every tile id is bound to at most
    one slot; the placement operation itself establishes this: after
    [placeLetter s t], on any assignment, the slots bound to [t] are
    exactly [{s}]. *)
Theorem single_slot_per_tile (a : App) (ops : list Op) (t : string) :
  userAnswers (gameState a) = ∅ →
  size (slotsOf t (userAnswers (gameState (run ops a)))) ≤ 1 ∧
  ∀ s, slotsOf t (userAnswers (gameState (placeLetter s t (run ops a)))) = {[s]}.
Proof.
  intros Hempty. split.
  - apply single_slot_size, run_single_slot. rewrite Hempty.
    apply single_slot_empty.
  - intros s. apply placeLetter_slotsOf.
Qed.

Lemma single_slot_per_tile_witness :
  size (slotsOf "t1"
          (userAnswers (gameState
             (run [Place 1 "t1"; Place 2 "t2"; Place 2 "t1"; Remove 1;
                   Place 0 "t1"] initialApp)))) ≤ 1 ∧
  ∀ s, slotsOf "t1"
         (userAnswers (gameState
            (placeLetter s "t1"
               (run [Place 1 "t1"; Place 2 "t2"; Place 2 "t1"; Remove 1;
                     Place 0 "t1"] initialApp)))) = {[s]}.
Proof. apply (single_slot_per_tile initialApp); reflexivity. Defined.

(** ** The verifier *)

Lemma truthy_Some_iff s : truthy (Some s) = true ↔ s ≠ "".
Proof.
  unfold truthy. rewrite negb_true_iff, bool_decide_eq_false. done.
Qed.

Lemma truthy_bound (m : gmap Z string) i : truthy (m !! i) = true ↔ bound m i.
Proof.
  unfold bound. destruct (m !! i) as [t|]; simpl.
  - rewrite negb_true_iff, bool_decide_eq_false. split.
    + intros Ht. by exists t.
    + by intros (t' & [= <-] & Ht).
  - split; [done|]. by intros (t & ? & _).
Qed.

Lemma allFilled_complete p g :
  allFilled p g = true ↔ complete p (userAnswers g).
Proof.
  unfold allFilled, complete. rewrite forallb_forall.
  setoid_rewrite <- list_elem_of_In. by setoid_rewrite truthy_bound.
Qed.

(** [find] on the pool computes [resolves]. *)
Lemma find_split {A} (f : A → bool) (l : list A) x :
  List.find f l = Some x →
  ∃ pre post, l = pre ++ x :: post ∧ f x = true ∧ ∀ y, y ∈ pre → f y = false.
Proof.
  induction l as [|y l IH]; [done|]. simpl.
  destruct (f y) eqn:Hy.
  - intros [= ->]. exists [], l. split; [done|]. split; [done|].
    intros z Hz. by apply elem_of_nil in Hz.
  - intros (pre & post & -> & Hx & Hpre)%IH.
    exists (y :: pre), post. split; [done|]. split; [done|].
    intros z [->|Hz]%elem_of_cons; [done|by apply Hpre].
Qed.

Lemma findChoice_resolves cs t :
  resolves cs t (charOf (findChoice cs (Some t))).
Proof.
  unfold findChoice. destruct (List.find _ cs) as [c|] eqn:Hf; simpl.
  - apply find_split in Hf as (pre & post & -> & Hc & Hpre).
    apply bool_decide_eq_true in Hc as [= Hid].
    apply (resolves_found _ _ pre c post); [done|done|].
    intros c' Hc' Hid'. apply Hpre in Hc'.
    apply bool_decide_eq_false in Hc'. congruence.
  - apply resolves_absent. intros c Hc Hid.
    apply list_elem_of_In in Hc.
    apply (find_none _ _ Hf) in Hc. apply bool_decide_eq_false in Hc.
    congruence.
Qed.

Lemma resolves_findChoice cs t l :
  resolves cs t l → charOf (findChoice cs (Some t)) = l.
Proof.
  unfold findChoice. intros [pre c post -> Hid Hpre|Habs].
  - induction pre as [|c0 pre IH]; simpl.
    + by rewrite bool_decide_eq_true_2 by congruence.
    + rewrite bool_decide_eq_false_2.
      * apply IH. intros c' Hc'. apply Hpre. by right.
      * intros [= Hc0]. by apply (Hpre c0); [left|].
  - induction cs as [|c0 cs IH]; [done|]. simpl.
    rewrite bool_decide_eq_false_2.
    + apply IH. intros c Hc. apply Habs. by right.
    + intros [= Hc0]. by apply (Habs c0); [left|].
Qed.

Lemma resolves_functional cs t l1 l2 :
  resolves cs t l1 → resolves cs t l2 → l1 = l2.
Proof. intros H1%resolves_findChoice H2%resolves_findChoice. congruence. Qed.

(** The [every] of [checkAnswer] over the missing positions decides the
    conjunction of the letter comparisons, once every position is bound. *)
Lemma isCorrect_all_match p g :
  complete p (userAnswers g) →
  isCorrect p g = true ↔ all_match p g.
Proof.
  intros Hc. unfold isCorrect, all_match, letter_matches.
  rewrite forallb_forall. setoid_rewrite <- list_elem_of_In.
  split; intros H i Hi.
  - destruct (Hc i Hi) as (t & Ht & _). exists t, (charAt (word p) i).
    split; [done|]. split; [|done].
    specialize (H i Hi). simpl in H. apply bool_decide_eq_true in H.
    rewrite <- H, Ht. apply findChoice_resolves.
  - destruct (H i Hi) as (t & l & Ht & Hl & ->). simpl.
    apply bool_decide_eq_true. rewrite Ht. by apply resolves_findChoice.
Qed.

(** The three outcomes of [checkAnswer] on a loaded puzzle. *)
Lemma checkAnswer_incomplete a p :
  puzzle (gameState a) = Some p →
  allFilled p (gameState a) = false →
  checkAnswer a = setFeedback Feedback.incorrect a.
Proof. intros Hp Hf. unfold checkAnswer. by rewrite Hp, Hf. Qed.

Lemma checkAnswer_wrong a p :
  puzzle (gameState a) = Some p →
  allFilled p (gameState a) = true →
  isCorrect p (gameState a) = false →
  checkAnswer a = setFeedback Feedback.incorrect a.
Proof. intros Hp Hf Hc. unfold checkAnswer. by rewrite Hp, Hf, Hc. Qed.

Lemma checkAnswer_right a p :
  puzzle (gameState a) = Some p →
  allFilled p (gameState a) = true →
  isCorrect p (gameState a) = true →
  checkAnswer a =
    setGameState (with_status Status.success) (setFeedback Feedback.correct a).
Proof. intros Hp Hf Hc. unfold checkAnswer. by rewrite Hp, Hf, Hc. Qed.

Lemma allFilled_false_unbound p g i :
  i ∈ missingIndices p → ¬ bound (userAnswers g) i → allFilled p g = false.
Proof.
  intros Hi Hn. apply not_true_iff_false. intros H.
  apply allFilled_complete in H. by apply Hn, H.
Qed.


Lemma complete_CAT (cs : list Choice.t) t :
  t ≠ "" → complete CAT (userAnswers (gameState (playing_CAT cs {[1%Z := t]}))).
Proof.
  intros Ht i Hi. apply list_elem_of_singleton in Hi as ->.
  exists t. split; [apply lookup_singleton_eq|done].
Qed.

(** The two outcomes of [checkAnswer] once every missing position is
    bound. *)
Lemma checkAnswer_on_complete (a : App) (p : PuzzleData) :
  puzzle (gameState a) = Some p →
  complete p (userAnswers (gameState a)) →
  (all_match p (gameState a) ∧
   checkAnswer a =
     setGameState (with_status Status.success)
       (setFeedback Feedback.correct a))
  ∨ (¬ all_match p (gameState a) ∧
     checkAnswer a = setFeedback Feedback.incorrect a).
Proof.
  intros Hp Hc. pose proof (proj2 (allFilled_complete _ _) Hc) as Hf.
  destruct (isCorrect p (gameState a)) eqn:Hi.
  - left. split; [by apply isCorrect_all_match|by apply (checkAnswer_right _ p)].
  - right. split; [|by apply (checkAnswer_wrong _ p)].
    intros Hm. apply isCorrect_all_match in Hm; [congruence|done].
Qed.

(** C2 (amended). For every state whose puzzle is loaded and whose
    missing positions are all bound, the verifier reports correct (and
    the round becomes solved) exactly when, at every missing position,
    the letter of the bound tile equals [word[i]]; otherwise it reports
    incorrect.  The comparison is exact equality of the two values: no
    case normalization takes place in the verifier. *)
Theorem verify_is_exact_conjunction (a : App) (p : PuzzleData) :
  puzzle (gameState a) = Some p →
  complete p (userAnswers (gameState a)) →
  (all_match p (gameState a) ∧
   checkAnswer a =
     setGameState (with_status Status.success)
       (setFeedback Feedback.correct a))
  ∨ (¬ all_match p (gameState a) ∧
     checkAnswer a = setFeedback Feedback.incorrect a).
Proof. apply checkAnswer_on_complete. Qed.

Lemma verify_is_exact_conjunction_witness :
  (all_match CAT (gameState (playing_CAT example_pool {[1%Z := "t1"]})) ∧
   checkAnswer (playing_CAT example_pool {[1%Z := "t1"]}) =
     setGameState (with_status Status.success)
       (setFeedback Feedback.correct
          (playing_CAT example_pool {[1%Z := "t1"]})))
  ∨ (¬ all_match CAT (gameState (playing_CAT example_pool {[1%Z := "t1"]})) ∧
     checkAnswer (playing_CAT example_pool {[1%Z := "t1"]}) =
       setFeedback Feedback.incorrect
         (playing_CAT example_pool {[1%Z := "t1"]})).
Proof.
  apply (verify_is_exact_conjunction _ CAT); [reflexivity|].
  by apply complete_CAT.
Defined.

(** C2, counterexample. Word CAT, missing position 1, bound to a tile
    whose letter is the lower-case "a": every missing position is bound
    and the case-normalized comparison of the specification succeeds, but
    the verifier reports incorrect and the round is not solved. *)
Lemma verify_not_case_normalized :
  complete CAT
    (userAnswers
       (gameState (playing_CAT [Choice.mk "t1" (Some "a")] {[1%Z := "t1"]}))) ∧
  spec_correct_normalized CAT
    (gameState (playing_CAT [Choice.mk "t1" (Some "a")] {[1%Z := "t1"]}))
    = true ∧
  feedback (checkAnswer
              (playing_CAT [Choice.mk "t1" (Some "a")] {[1%Z := "t1"]}))
    = Feedback.incorrect ∧
  solved (checkAnswer
            (playing_CAT [Choice.mk "t1" (Some "a")] {[1%Z := "t1"]}))
    = false.
Proof. split; [by apply complete_CAT|]. by vm_compute. Qed.

(** C3 (amended). When some missing position is not bound, a verify
    request finds the assignment incomplete, does not report correct and
    leaves the status and the whole game state as they were; the
    rejection is reported through the same feedback value, [incorrect],
    as the rejection of a complete assignment with a wrong letter. *)
Theorem verify_incomplete_rejected (a : App) (p : PuzzleData) (i : Z) :
  puzzle (gameState a) = Some p →
  i ∈ missingIndices p →
  ¬ bound (userAnswers (gameState a)) i →
  allFilled p (gameState a) = false ∧
  feedback (checkAnswer a) = Feedback.incorrect ∧
  gameState (checkAnswer a) = gameState a ∧
  ∀ b q, puzzle (gameState b) = Some q →
         complete q (userAnswers (gameState b)) →
         ¬ all_match q (gameState b) →
         feedback (checkAnswer b) = feedback (checkAnswer a).
Proof.
  intros Hp Hi Hn.
  pose proof (allFilled_false_unbound p (gameState a) i Hi Hn) as Hf.
  rewrite (checkAnswer_incomplete a p Hp Hf).
  split; [done|]. split; [done|]. split; [done|].
  intros b q Hq Hc Hm.
  destruct (checkAnswer_on_complete b q Hq Hc) as [[? _]|[_ ->]]; done.
Qed.

Lemma verify_incomplete_rejected_witness :
  allFilled CAT (gameState (playing_CAT example_pool ∅)) = false ∧
  feedback (checkAnswer (playing_CAT example_pool ∅)) = Feedback.incorrect ∧
  gameState (checkAnswer (playing_CAT example_pool ∅))
    = gameState (playing_CAT example_pool ∅) ∧
  ∀ b q, puzzle (gameState b) = Some q →
         complete q (userAnswers (gameState b)) →
         ¬ all_match q (gameState b) →
         feedback (checkAnswer b)
           = feedback (checkAnswer (playing_CAT example_pool ∅)).
Proof.
  apply (verify_incomplete_rejected _ CAT 1%Z).
  - reflexivity.
  - apply list_elem_of_singleton. reflexivity.
  - intros (t & Ht & _). vm_compute in Ht. discriminate.
Defined.

(** C3, counterexample. With word CAT and missing position 1, the empty
    assignment is incomplete and the assignment binding the distractor
    [t2] is complete with a wrong letter; the two verify requests report
    the same feedback, so the incomplete rejection is not distinct from
    the wrong-letter one. *)
Lemma incomplete_report_not_distinct :
  allFilled CAT (gameState (playing_CAT example_pool ∅)) = false ∧
  allFilled CAT (gameState (playing_CAT example_pool {[1%Z := "t2"]})) = true ∧
  isCorrect CAT (gameState (playing_CAT example_pool {[1%Z := "t2"]})) = false ∧
  ¬ (feedback (checkAnswer (playing_CAT example_pool ∅))
     ≠ feedback (checkAnswer (playing_CAT example_pool {[1%Z := "t2"]}))).
Proof.
  split; [by vm_compute|]. split; [by vm_compute|]. split; [by vm_compute|].
  intros H. by apply H.
Qed.

(** [placeLetter] and [removeLetter] reset the feedback. *)
Lemma placeLetter_feedback s t a : feedback (placeLetter s t a) = Feedback.none.
Proof. reflexivity. Qed.

Lemma removeLetter_feedback s a : feedback (removeLetter s a) = Feedback.none.
Proof. reflexivity. Qed.

(** C4. In the playing state, with every missing position bound: when
    every bound letter is right the verify request moves the session to
    [success]; when some letter is wrong the session stays [playing] with
    the feedback [incorrect], and the next placement or removal clears
    that feedback. *)
Theorem verify_transitions (a : App) (p : PuzzleData) :
  status (gameState a) = Status.playing →
  puzzle (gameState a) = Some p →
  complete p (userAnswers (gameState a)) →
  (all_match p (gameState a) →
     status (gameState (checkAnswer a)) = Status.success) ∧
  (¬ all_match p (gameState a) →
     status (gameState (checkAnswer a)) = Status.playing ∧
     feedback (checkAnswer a) = Feedback.incorrect ∧
     (∀ s t, feedback (placeLetter s t (checkAnswer a)) = Feedback.none) ∧
     (∀ s, feedback (removeLetter s (checkAnswer a)) = Feedback.none)).
Proof.
  intros Hs Hp Hc.
  destruct (checkAnswer_on_complete a p Hp Hc) as [[Hm ->]|[Hm ->]].
  - split; [done|]. intros Hn. by destruct Hn.
  - split; [intros H; by destruct Hm|]. intros _. simpl.
    split; [done|]. split; [done|]. split; intros; reflexivity.
Qed.

Lemma verify_transitions_witness :
  (all_match CAT (gameState (playing_CAT example_pool {[1%Z := "t2"]})) →
     status (gameState (checkAnswer (playing_CAT example_pool {[1%Z := "t2"]})))
       = Status.success) ∧
  (¬ all_match CAT (gameState (playing_CAT example_pool {[1%Z := "t2"]})) →
     status (gameState (checkAnswer (playing_CAT example_pool {[1%Z := "t2"]})))
       = Status.playing ∧
     feedback (checkAnswer (playing_CAT example_pool {[1%Z := "t2"]}))
       = Feedback.incorrect ∧
     (∀ s t, feedback (placeLetter s t
                         (checkAnswer
                            (playing_CAT example_pool {[1%Z := "t2"]})))
             = Feedback.none) ∧
     (∀ s, feedback (removeLetter s
                       (checkAnswer
                          (playing_CAT example_pool {[1%Z := "t2"]})))
           = Feedback.none)).
Proof.
  apply (verify_transitions _ CAT); [reflexivity|reflexivity|].
  by apply complete_CAT.
Defined.



(** Outside the data model: for a missing index that is not an index of
    the word, [word[index]] is [undefined] as well, and an unknown tile id
    compares equal to it. *)
Example absent_tile_outside_word :
  isCorrect (mkPuzzleData "CAT" [5%Z] "It purrs")
    (mkGameState Status.playing (Some (mkPuzzleData "CAT" [5%Z] "It purrs"))
       None example_pool {[5%Z := "ghost"]} None)
  = true.
Proof. by vm_compute. Qed.

(** ** Slot clicks *)

(** C10. A click on a slot: with a tile selected, the selected tile is
    placed into the slot, whether or not the slot was filled, and the
    slot then holds the selected tile; with no tile selected and the slot
    filled, the occupant is removed; the occupant of a filled slot
    disappears only in that second case; with no tile selected and the
    slot empty, the state, the assignment included, is unchanged. *)
Theorem slot_click (a : App) (s : Z) :
  (∀ t, selectedChoiceId a = Some t → t ≠ "" →
        handleSlotClick s a = placeLetter s t a ∧
        userAnswers (gameState (handleSlotClick s a)) !! s = Some t) ∧
  (∀ t', selectedChoiceId a = None →
         userAnswers (gameState a) !! s = Some t' → t' ≠ "" →
         handleSlotClick s a = removeLetter s a ∧
         userAnswers (gameState (handleSlotClick s a)) !! s = None) ∧
  (∀ t', userAnswers (gameState a) !! s = Some t' →
         userAnswers (gameState (handleSlotClick s a)) !! s = None →
         truthy (selectedChoiceId a) = false ∧ t' ≠ "" ∧
         handleSlotClick s a = removeLetter s a) ∧
  (selectedChoiceId a = None →
   userAnswers (gameState a) !! s = None →
   handleSlotClick s a = a).
Proof.
  unfold handleSlotClick. split; [|split; [|split]].
  - intros t Hsel Ht. rewrite Hsel.
    rewrite (proj2 (truthy_Some_iff t) Ht). split; [done|].
    rewrite placeLetter_lookup. by rewrite decide_True.
  - intros t' Hsel Hs Ht'. rewrite Hsel, Hs.
    rewrite (proj2 (truthy_Some_iff t') Ht'). split; [done|].
    change (truthy None) with false. cbv iota.
    rewrite removeLetter_lookup. by rewrite decide_True.
  - intros t' Hs Hafter. rewrite Hs in Hafter |- *.
    destruct (truthy (selectedChoiceId a)).
    + rewrite placeLetter_lookup, decide_True in Hafter; done.
    + split; [done|]. destruct (truthy (Some t')) eqn:Ht'.
      * split; [|done]. by apply truthy_Some_iff.
      * congruence.
  - intros Hsel Hs. by rewrite Hsel, Hs.
Qed.

(** ** Tile ids *)

Lemma pretty_N_char_no_dash (x : N) : pretty_N_char x ≠ "-"%char.
Proof. unfold pretty_N_char. by repeat case_match. Qed.

Lemma pretty_N_go_no_dash (x : N) s : no_dash s → no_dash (pretty_N_go x s).
Proof.
  revert s. induction (N.lt_wf_0 x) as [x _ IH]; intros s Hs.
  destruct (decide (x = 0%N)) as [->|Hx].
  - by rewrite pretty_N_go_0.
  - rewrite pretty_N_go_step by lia. apply IH.
    + apply N.div_lt; lia.
    + split; [apply pretty_N_char_no_dash|done].
Qed.

Lemma pretty_N_no_dash (x : N) : no_dash (pretty x).
Proof.
  unfold pretty, pretty_N. case_decide.
  - by split.
  - by apply pretty_N_go_no_dash.
Qed.

(** Two decimal numbers, each followed by a dash, do not overlap. *)
Lemma no_dash_prefix_inj s1 s2 r1 r2 :
  no_dash s1 → no_dash s2 →
  s1 +:+ "-" +:+ r1 = s2 +:+ "-" +:+ r2 → s1 = s2.
Proof.
  revert s2. induction s1 as [|c1 s1 IH]; intros [|c2 s2]; simpl.
  - done.
  - intros _ [Hc _] [= <- _]. done.
  - intros [Hc _] _ [= -> _]. done.
  - intros [_ H1] [_ H2] [= -> Heq]. f_equal. by apply IH.
Qed.

Section Pool.

Variable ALPHABET : string.
Variable FALLBACK_PUZZLES : list PuzzleData.
Variable draw : nat → nat.
Variable now : nat → N.
Variable shuffle : list Choice.t → list Choice.t.
Hypothesis shuffle_perm : ∀ l, shuffle l ≡ₚ l.

Local Abbreviation tileId := (choiceId now).
Local Abbreviation made := (labelled ALPHABET draw now).
Local Abbreviation extra := (distractors ALPHABET draw).
Local Abbreviation letters := (poolChars ALPHABET draw).
Local Abbreviation pool := (buildChoices ALPHABET draw now shuffle).

Lemma choiceId_inj i j : tileId i = tileId j → i = j.
Proof.
  unfold choiceId. intros H. apply (inj _) in H.
  apply no_dash_prefix_inj in H.
  - by apply (inj pretty) in H.
  - apply (pretty_N_no_dash (N.of_nat i)).
  - apply (pretty_N_no_dash (N.of_nat j)).
Qed.


Lemma length_pushDistractors n i acc :
  length (pushDistractors ALPHABET draw n i acc) = length acc + n.
Proof.
  revert i acc. induction n as [|n IH]; intros i acc; simpl; [lia|].
  rewrite IH, length_app. simpl. lia.
Qed.

Lemma length_correctLetters p :
  length (correctLetters p) = length (missingIndices p).
Proof. apply length_map. Qed.

Lemma length_poolChars p :
  length (letters p) = length (missingIndices p) `max` 6.
Proof.
  unfold poolChars, distractors, lettersNeeded.
  rewrite length_app, length_pushDistractors, length_correctLetters.
  simpl. lia.
Qed.

Lemma length_labelled p :
  length (made p) = length (missingIndices p) `max` 6.
Proof.
  unfold labelled. by rewrite length_imap, length_poolChars.
Qed.

Lemma labelled_lookup p j :
  made p !! j = Choice.mk (tileId j) <$> letters p !! j.
Proof. unfold labelled. by rewrite list_lookup_imap. Qed.

Lemma NoDup_labelled_ids p : NoDup (Choice.id <$> made p).
Proof.
  apply NoDup_alt. intros i j x. rewrite !list_lookup_fmap, !labelled_lookup.
  destruct (letters p !! i) as [ci|]; [|done].
  destruct (letters p !! j) as [cj|]; [|done].
  intros Hi Hj. apply choiceId_inj.
  change (Some (tileId i) = Some x) in Hi.
  change (Some (tileId j) = Some x) in Hj. congruence.
Qed.

Lemma buildChoices_perm p : pool p ≡ₚ made p.
Proof. apply shuffle_perm. Qed.

(** The correct tiles are the first ones made, one for each entry of
    [missingIndices], in the order of that array. *)
Lemma labelled_correct p j i :
  missingIndices p !! j = Some i →
  made p !! j = Some (Choice.mk (tileId j) (charAt (word p) i)).
Proof.
  intros Hj. rewrite labelled_lookup. unfold poolChars.
  rewrite lookup_app_l.
  - unfold correctLetters. change map with (@fmap list _).
    by rewrite list_lookup_fmap, Hj.
  - rewrite length_correctLetters. by eapply lookup_lt_Some.
Qed.

Lemma labelled_chars p : Choice.char <$> made p = letters p.
Proof.
  apply list_eq. intros k. rewrite list_lookup_fmap, labelled_lookup.
  by destruct (letters p !! k).
Qed.

Lemma labelled_take_chars p :
  Choice.char <$> take (length (missingIndices p)) (made p)
  = charAt (word p) <$> missingIndices p.
Proof.
  rewrite fmap_take, labelled_chars. unfold poolChars.
  rewrite take_app_length'; [done|]. by rewrite length_correctLetters.
Qed.

(** With more than six missing positions the loop does not run. *)
Lemma distractors_none p : 6 ≤ length (missingIndices p) → extra p = [].
Proof.
  intros H. unfold distractors, lettersNeeded.
  rewrite length_correctLetters.
  by replace (Z.to_nat (6 - Z.of_nat (length (missingIndices p)))) with 0
    by lia.
Qed.

Lemma length_toUpperCase s : String.length (toUpperCase s) = String.length s.
Proof. induction s as [|c s IH]; simpl; [done|]. by rewrite IH. Qed.

Lemma validate_in_range data i :
  i ∈ missingIndices (validate data) →
  (0 ≤ i < Z.of_nat (String.length (word (validate data))))%Z.
Proof. unfold validate. simpl. by intros [H _]%list_elem_of_filter. Qed.

(** C5 (amended). The pool size is the constant 6.  For every puzzle
    with at most six missing positions the pool has exactly six tiles;
    the correct tiles are made first, one for each entry of
    [missingIndices] in the order of that array (which need not be
    ascending): tile number [j] carries the letter at the position listed
    in entry [j]; so every letter at a missing position is carried by
    some tile of the pool; and the tile ids are pairwise distinct. *)
Theorem pool_composition (p : PuzzleData) :
  length (missingIndices p) ≤ 6 →
  length (pool p) = 6 ∧
  (∀ j i, missingIndices p !! j = Some i →
          Choice.mk (tileId j) (charAt (word p) i) ∈ pool p) ∧
  (∀ i, i ∈ missingIndices p →
        ∃ c, c ∈ pool p ∧ Choice.char c = charAt (word p) i) ∧
  Choice.char <$> take (length (missingIndices p)) (made p)
    = charAt (word p) <$> missingIndices p ∧
  NoDup (Choice.id <$> pool p).
Proof.
  intros Hk.
  assert (∀ j i, missingIndices p !! j = Some i →
            Choice.mk (tileId j) (charAt (word p) i) ∈ pool p) as Hin.
  { intros j i Hj. rewrite buildChoices_perm.
    apply list_elem_of_lookup. exists j. by apply labelled_correct. }
  split; [|split; [done|split; [|split]]].
  - rewrite buildChoices_perm, length_labelled. lia.
  - intros i [j Hj]%list_elem_of_lookup. eexists. split; [by eapply Hin|done].
  - apply labelled_take_chars.
  - rewrite buildChoices_perm. apply NoDup_labelled_ids.
Qed.

(** C6 (amended). No configuration error exists.  For every puzzle with
    more than six missing positions the round still starts: the status
    becomes [playing] and no error message is set; the pool holds one
    correct tile for each missing position and no distractor, so it has
    more than six tiles. *)
Theorem oversized_puzzle_builds_pool (p : PuzzleData) (a : App) :
  6 < length (missingIndices p) →
  status (gameState (startNewRound_resume ALPHABET draw now shuffle (Some p) a))
    = Status.playing ∧
  errorMessage
    (gameState (startNewRound_resume ALPHABET draw now shuffle (Some p) a))
    = errorMessage (gameState a) ∧
  choices (gameState (startNewRound_resume ALPHABET draw now shuffle (Some p) a))
    = pool p ∧
  extra p = [] ∧
  length (pool p) = length (missingIndices p).
Proof.
  intros Hk. split; [done|]. split; [done|]. split; [done|].
  split; [apply distractors_none; lia|].
  rewrite buildChoices_perm, length_labelled. lia.
Qed.

(** C8 (amended). A reply of the puzzle service is never rejected: with
    an API key, the reply is returned with its word upper-cased and with
    the indices outside the word silently dropped, so the indices that
    remain are valid.  The round then starts with whatever puzzle it is
    given, without any check: the status becomes [playing], also when the
    word or the list of missing positions is empty.  The status [error]
    is reached only when no puzzle object arrives. *)
Theorem puzzle_reply_sanitized_not_rejected
    (d : Difficulty) (apiKey : string) (data : PuzzleData) (k : nat) (a : App) :
  apiKey ≠ "" →
  generatePuzzle FALLBACK_PUZZLES d apiKey (Some data) k
    = Some (validate data) ∧
  word (validate data) = toUpperCase (word data) ∧
  missingIndices (validate data)
    = filter (λ i, 0 ≤ i < Z.of_nat (String.length (word data)))%Z
        (missingIndices data) ∧
  (∀ i, i ∈ missingIndices (validate data) →
        (0 ≤ i < Z.of_nat (String.length (word (validate data))))%Z) ∧
  (∀ p, status (gameState
                  (startNewRound_resume ALPHABET draw now shuffle (Some p) a))
          = Status.playing ∧
        puzzle (gameState
                  (startNewRound_resume ALPHABET draw now shuffle (Some p) a))
          = Some p) ∧
  status (gameState (startNewRound_resume ALPHABET draw now shuffle None a))
    = Status.error.
Proof.
  intros Hkey. split; [|split; [done|split; [|split; [|split]]]].
  - unfold generatePuzzle. by rewrite (proj2 (truthy_Some_iff apiKey) Hkey).
  - unfold validate. simpl. by rewrite length_toUpperCase.
  - apply validate_in_range.
  - done.
  - done.
Qed.

End Pool.

Lemma example_shuffle_perm l : example_shuffle l ≡ₚ l.
Proof. apply reverse_Permutation. Qed.

Lemma pool_composition_witness :
  length (buildChoices LETTERS example_draw example_now example_shuffle CAT)
    = 6 ∧
  (∀ j i, missingIndices CAT !! j = Some i →
          Choice.mk (choiceId example_now j) (charAt (word CAT) i)
          ∈ buildChoices LETTERS example_draw example_now example_shuffle CAT) ∧
  (∀ i, i ∈ missingIndices CAT →
        ∃ c, c ∈ buildChoices LETTERS example_draw example_now
                   example_shuffle CAT
             ∧ Choice.char c = charAt (word CAT) i) ∧
  Choice.char <$> take (length (missingIndices CAT))
                    (labelled LETTERS example_draw example_now CAT)
    = charAt (word CAT) <$> missingIndices CAT ∧
  NoDup (Choice.id <$>
           buildChoices LETTERS example_draw example_now example_shuffle CAT).
Proof.
  apply (pool_composition LETTERS example_draw example_now example_shuffle
           example_shuffle_perm CAT).
  simpl. lia.
Defined.

(** C5, counterexample. Word CAT with the missing positions listed as
    [2; 0]: the first two tiles made carry T and then C, while the
    letters at the missing positions in ascending position order are C
    and then T; in the pool, tile number 0 carries T. *)
Lemma correct_tiles_follow_array_order :
  length (missingIndices CAT_20) ≤ 6 ∧
  Choice.char <$> take (length (missingIndices CAT_20))
                    (labelled LETTERS example_draw example_now CAT_20)
    = [Some "T"; Some "C"] ∧
  spec_correct_letters CAT_20 = [Some "C"; Some "T"] ∧
  Choice.char <$> take (length (missingIndices CAT_20))
                    (labelled LETTERS example_draw example_now CAT_20)
    ≠ spec_correct_letters CAT_20 ∧
  Choice.mk "choice-0-1700000000000" (Some "T")
    ∈ buildChoices LETTERS example_draw example_now example_shuffle CAT_20.
Proof.
  split; [simpl; lia|]. split; [by vm_compute|]. split; [by vm_compute|].
  split; [by vm_compute|]. apply list_elem_of_lookup. exists 5.
  by vm_compute.
Qed.

Lemma oversized_puzzle_builds_pool_witness :
  status (gameState (startNewRound_resume LETTERS example_draw example_now
                       example_shuffle (Some RAINBOW) initialApp))
    = Status.playing ∧
  errorMessage
    (gameState (startNewRound_resume LETTERS example_draw example_now
                  example_shuffle (Some RAINBOW) initialApp))
    = errorMessage (gameState initialApp) ∧
  choices (gameState (startNewRound_resume LETTERS example_draw example_now
                        example_shuffle (Some RAINBOW) initialApp))
    = buildChoices LETTERS example_draw example_now example_shuffle RAINBOW ∧
  distractors LETTERS example_draw RAINBOW = [] ∧
  length (buildChoices LETTERS example_draw example_now example_shuffle RAINBOW)
    = length (missingIndices RAINBOW).
Proof.
  apply (oversized_puzzle_builds_pool LETTERS example_draw example_now
           example_shuffle example_shuffle_perm RAINBOW initialApp).
  simpl. lia.
Defined.

(** C6, counterexample. A puzzle with seven missing positions, one more
    than the pool size: pool construction does not fail; the round is in
    the [playing] state, without error message, with a pool of seven
    tiles. *)
Lemma oversized_puzzle_no_error :
  6 < length (missingIndices RAINBOW) ∧
  status (gameState (play_round RAINBOW initialApp)) = Status.playing ∧
  status (gameState (play_round RAINBOW initialApp)) ≠ Status.error ∧
  errorMessage (gameState (play_round RAINBOW initialApp)) = None ∧
  length (choices (gameState (play_round RAINBOW initialApp))) = 7.
Proof. split; [simpl; lia|]. by vm_compute. Qed.

Lemma puzzle_reply_sanitized_not_rejected_witness :
  generatePuzzle [CAT] EASY "key" (Some reply_off_by_one) 0
    = Some (validate reply_off_by_one) ∧
  word (validate reply_off_by_one) = toUpperCase (word reply_off_by_one) ∧
  missingIndices (validate reply_off_by_one)
    = filter (λ i, 0 ≤ i
                   < Z.of_nat (String.length (word reply_off_by_one)))%Z
        (missingIndices reply_off_by_one) ∧
  (∀ i, i ∈ missingIndices (validate reply_off_by_one) →
        (0 ≤ i
         < Z.of_nat (String.length (word (validate reply_off_by_one))))%Z) ∧
  (∀ p, status (gameState
                  (startNewRound_resume LETTERS example_draw example_now
                     example_shuffle (Some p) initialApp))
          = Status.playing ∧
        puzzle (gameState
                  (startNewRound_resume LETTERS example_draw example_now
                     example_shuffle (Some p) initialApp))
          = Some p) ∧
  status (gameState (startNewRound_resume LETTERS example_draw example_now
                       example_shuffle None initialApp))
    = Status.error.
Proof.
  apply (puzzle_reply_sanitized_not_rejected LETTERS [CAT] example_draw
           example_now example_shuffle EASY "key" reply_off_by_one 0
           initialApp).
  done.
Defined.

(** C8, counterexample. The model replies with the word "cat" and the
    single index 3, which is not an index of the word.  The reply
    violates the contract, and so does the puzzle the service returns for
    it (CAT with no missing position); yet the round starts with that
    puzzle, in the [playing] state, and a verify request solves it at
    once. *)
Lemma invalid_puzzle_accepted :
  contract_ok reply_off_by_one = false ∧
  generatePuzzle [CAT] EASY "key" (Some reply_off_by_one) 0
    = Some (mkPuzzleData "CAT" [] "It purrs") ∧
  contract_ok (mkPuzzleData "CAT" [] "It purrs") = false ∧
  status (gameState (play_round (mkPuzzleData "CAT" [] "It purrs") initialApp))
    = Status.playing ∧
  status (gameState (play_round (mkPuzzleData "CAT" [] "It purrs") initialApp))
    ≠ Status.error ∧
  puzzle (gameState (play_round (mkPuzzleData "CAT" [] "It purrs") initialApp))
    = Some (mkPuzzleData "CAT" [] "It purrs") ∧
  solved (checkAnswer
            (play_round (mkPuzzleData "CAT" [] "It purrs") initialApp))
    = true.
Proof. by vm_compute. Qed.

(** ** The illustration *)

(** C7 (amended). The result of an illustration request carries no
    round identity and is not compared with the current round: whenever
    it arrives with a non-empty URL, whatever round is current, the URL
    becomes the illustration of the current state, and nothing else
    changes; only an absent or empty result leaves the state as it is. *)
Theorem illustration_applied_on_arrival (a : App) (url : string) :
  url ≠ "" →
  gameState (imageResolved (Some url) a)
    = with_imageUrl (Some url) (gameState a) ∧
  imageUrl (gameState (imageResolved (Some url) a)) = Some url ∧
  status (gameState (imageResolved (Some url) a)) = status (gameState a) ∧
  puzzle (gameState (imageResolved (Some url) a)) = puzzle (gameState a) ∧
  imageResolved None a = a ∧
  imageResolved (Some "") a = a.
Proof.
  intros Hurl. unfold imageResolved.
  rewrite (proj2 (truthy_Some_iff url) Hurl). done.
Qed.

Lemma illustration_applied_on_arrival_witness :
  gameState (imageResolved (Some (placeholderUrl "CAT")) round_R1)
    = with_imageUrl (Some (placeholderUrl "CAT")) (gameState round_R1) ∧
  imageUrl (gameState (imageResolved (Some (placeholderUrl "CAT")) round_R1))
    = Some (placeholderUrl "CAT") ∧
  status (gameState (imageResolved (Some (placeholderUrl "CAT")) round_R1))
    = status (gameState round_R1) ∧
  puzzle (gameState (imageResolved (Some (placeholderUrl "CAT")) round_R1))
    = puzzle (gameState round_R1) ∧
  imageResolved None round_R1 = round_R1 ∧
  imageResolved (Some "") round_R1 = round_R1.
Proof.
  apply (illustration_applied_on_arrival round_R1 (placeholderUrl "CAT")).
  done.
Defined.

(** C7, counterexample. Round R (word CAT) starts and requests its
    illustration; before it arrives round R+1 (word DOG) starts, with no
    illustration yet.  When the illustration of round R then arrives, it
    becomes the illustration of round R+1. *)
Lemma stale_illustration_applied :
  puzzle (gameState round_R) = Some CAT ∧
  puzzle (gameState round_R1) = Some DOG ∧
  imageUrl (gameState round_R1) = None ∧
  illustration_R = Some "https://picsum.photos/seed/CAT/500/500" ∧
  imageUrl (gameState (imageResolved illustration_R round_R1))
    = Some "https://picsum.photos/seed/CAT/500/500" ∧
  imageUrl (gameState (imageResolved illustration_R round_R1))
    ≠ imageUrl (gameState round_R1).
Proof. by vm_compute. Qed.

Lemma slot_click_witness :
  (handleSlotClick 1
     (setSelectedChoiceId (Some "t1")
        (playing_CAT example_pool {[1%Z := "t2"]}))
   = placeLetter 1 "t1"
       (setSelectedChoiceId (Some "t1")
          (playing_CAT example_pool {[1%Z := "t2"]})) ∧
   userAnswers
     (gameState
        (handleSlotClick 1
           (setSelectedChoiceId (Some "t1")
              (playing_CAT example_pool {[1%Z := "t2"]})))) !! 1%Z
   = Some "t1") ∧
  (handleSlotClick 1 (playing_CAT example_pool {[1%Z := "t2"]})
   = removeLetter 1 (playing_CAT example_pool {[1%Z := "t2"]}) ∧
   userAnswers
     (gameState (handleSlotClick 1 (playing_CAT example_pool {[1%Z := "t2"]})))
     !! 1%Z = None) ∧
  handleSlotClick 1 (playing_CAT example_pool ∅) = playing_CAT example_pool ∅.
Proof.
  split; [|split].
  - apply (proj1 (slot_click _ 1%Z) "t1"); [reflexivity|done].
  - apply (proj1 (proj2 (slot_click _ 1%Z)) "t2"); [reflexivity|reflexivity|done].
  - apply (proj2 (proj2 (proj2 (slot_click _ 1%Z)))); reflexivity.
Defined.

(** * Further properties of the code *)

(** ** Tap and drop *)

Lemma isUsed_iff t g :
  isUsed t g = true ↔ ∃ k, userAnswers g !! k = Some t.
Proof.
  unfold isUsed. rewrite bool_decide_eq_true, list_elem_of_fmap. split.
  - intros [[k v] [-> Hin]]. exists k. by apply elem_of_map_to_list.
  - intros [k Hk]. exists (k, t). split; [done|]. by apply elem_of_map_to_list.
Qed.

Lemma isUsed_false_iff t g :
  isUsed t g = false ↔ ∀ k, userAnswers g !! k ≠ Some t.
Proof.
  rewrite <- not_true_iff_false, isUsed_iff. split.
  - intros Hn k Hk. apply Hn. by exists k.
  - intros Hn [k Hk]. by apply (Hn k).
Qed.



(** ** The Check Answer button *)

Lemma length_Object_keys (m : gmap Z string) :
  length (Object_keys m) = size m.
Proof. unfold Object_keys. by rewrite length_fmap, length_map_to_list. Qed.

(** X2. The Check Answer button is enabled exactly when every missing
    position is filled, for a puzzle that lists each missing position
    once and an assignment whose slots are missing positions and whose
    tile ids are not empty. *)
Theorem check_button_enabled_iff_filled (p : PuzzleData) (g : GameState) :
  NoDup (missingIndices p) →
  dom (userAnswers g) ⊆ list_to_set (missingIndices p) →
  (∀ k t, userAnswers g !! k = Some t → t ≠ "") →
  checkDisabled p g = false ↔ allFilled p g = true.
Proof.
  intros Hnd Hdom Hne. unfold checkDisabled.
  rewrite negb_false_iff, bool_decide_eq_true, length_Object_keys.
  rewrite <- (size_dom (D := gset Z)).
  rewrite <- (size_list_to_set (C := gset Z) (missingIndices p)) by done.
  rewrite allFilled_complete. split.
  - intros Hsize i Hi.
    assert (dom (userAnswers g) ≡ list_to_set (missingIndices p)) as Heq.
    { apply set_subseteq_size_equiv; [done|lia]. }
    assert (i ∈ dom (userAnswers g)) as [t Ht]%elem_of_dom.
    { rewrite Heq. by apply elem_of_list_to_set. }
    exists t. split; [done|]. by eapply Hne.
  - intros Hc. f_equal. apply leibniz_equiv.
    apply set_subseteq_antisymm; [done|].
    intros i Hi%elem_of_list_to_set. apply elem_of_dom.
    destruct (Hc i Hi) as (t & Ht & _). by exists t.
Qed.

Lemma check_button_enabled_iff_filled_witness :
  checkDisabled CAT (gameState (playing_CAT example_pool {[1%Z := "t2"]}))
    = false
  ↔ allFilled CAT (gameState (playing_CAT example_pool {[1%Z := "t2"]}))
    = true.
Proof.
  apply check_button_enabled_iff_filled.
  - simpl. apply NoDup_singleton.
  - simpl. rewrite dom_singleton_L. set_solver.
  - intros k t. simpl. rewrite lookup_singleton_Some. by intros [_ <-].
Defined.

Lemma length_remove_dups_le (l : list Z) : length (remove_dups l) ≤ length l.
Proof.
  induction l as [|x l IH]; simpl; [done|].
  destruct (decide_rel _ _ _); simpl; lia.
Qed.

Lemma length_remove_dups_lt (l : list Z) :
  ¬ NoDup l → length (remove_dups l) < length l.
Proof.
  induction l as [|x l IH]; intros Hnd.
  - destruct Hnd. constructor.
  - simpl. pose proof (length_remove_dups_le l).
    destruct (decide_rel _ _ _) as [Hin|Hin]; simpl; [lia|].
    assert (¬ NoDup l) as Hl.
    { intros Hl. apply Hnd. by constructor. }
    specialize (IH Hl). lia.
Qed.

Lemma size_list_to_set_lt (l : list Z) :
  ¬ NoDup l → size (list_to_set (C := gset Z) l) < length l.
Proof.
  intros Hnd.
  assert (list_to_set (C := gset Z) l = list_to_set (remove_dups l)) as ->.
  { apply set_eq. intros x.
    by rewrite !elem_of_list_to_set, elem_of_remove_dups. }
  rewrite size_list_to_set by apply NoDup_remove_dups.
  by apply length_remove_dups_lt.
Qed.

(** X3. A puzzle that lists a missing position twice cannot be
    submitted: while the bound slots are missing positions, the Check
    Answer button stays disabled, whatever the assignment. *)
Theorem repeated_position_disables_check (p : PuzzleData) (g : GameState) :
  ¬ NoDup (missingIndices p) →
  dom (userAnswers g) ⊆ list_to_set (missingIndices p) →
  checkDisabled p g = true.
Proof.
  intros Hnd Hdom. unfold checkDisabled.
  rewrite negb_true_iff, bool_decide_eq_false, length_Object_keys.
  rewrite <- (size_dom (D := gset Z)).
  pose proof (subseteq_size _ _ Hdom).
  pose proof (size_list_to_set_lt _ Hnd). lia.
Qed.

Lemma repeated_position_disables_check_witness :
  checkDisabled (mkPuzzleData "CAT" [1%Z; 1%Z] "It purrs")
    (mkGameState Status.playing
       (Some (mkPuzzleData "CAT" [1%Z; 1%Z] "It purrs")) None example_pool
       {[1%Z := "t1"]} None)
  = true.
Proof.
  apply repeated_position_disables_check.
  - simpl. intros Hnd. apply NoDup_cons in Hnd as [Hnd _].
    apply Hnd. by left.
  - simpl. rewrite dom_singleton_L. set_solver.
Defined.

(** ** A round can be solved *)





Section Solvable.

Variable ALPHABET : string.
Variable draw : nat → nat.
Variable now : nat → N.
Variable shuffle : list Choice.t → list Choice.t.
Hypothesis shuffle_perm : ∀ l, shuffle l ≡ₚ l.


End Solvable.


(** ** The validation of a reply *)




(** ** The session *)

Lemma handleChoiceClick_gameState t a :
  gameState (handleChoiceClick t a) = gameState a.
Proof.
  unfold handleChoiceClick. destruct (isUsed _ _); [done|].
  by destruct (decide _).
Qed.

Lemma checkAnswer_cases a :
  checkAnswer a = a
  ∨ checkAnswer a = setFeedback Feedback.incorrect a
  ∨ checkAnswer a =
      setGameState (with_status Status.success)
        (setFeedback Feedback.correct a).
Proof.
  unfold checkAnswer. destruct (puzzle (gameState a)); [|by left].
  destruct (allFilled _ _); simpl; [|by right; left].
  destruct (isCorrect _ _); [by right; right|by right; left].
Qed.

Lemma handleDrop_cases s d a :
  handleDrop s d a = a ∨ handleDrop s d a = placeLetter s d a.
Proof. unfold handleDrop. destruct (truthy _); [by right|by left]. Qed.

Lemma handleSlotClick_cases s a :
  handleSlotClick s a = a
  ∨ (∃ t, handleSlotClick s a = placeLetter s t a)
  ∨ (truthy (selectedChoiceId a) = false ∧
     handleSlotClick s a = removeLetter s a).
Proof.
  unfold handleSlotClick. destruct (truthy (selectedChoiceId a)).
  - right; left. by eexists.
  - destruct (truthy _); [by right; right|by left].
Qed.

Lemma handleAll_keeps_round (es : list Event) (a : App) :
  puzzle (gameState (handleAll es a)) = puzzle (gameState a) ∧
  choices (gameState (handleAll es a)) = choices (gameState a) ∧
  imageUrl (gameState (handleAll es a)) = imageUrl (gameState a) ∧
  errorMessage (gameState (handleAll es a)) = errorMessage (gameState a) ∧
  difficulty (handleAll es a) = difficulty a ∧
  (status (gameState (handleAll es a)) = status (gameState a)
   ∨ status (gameState (handleAll es a)) = Status.success) ∧
  (status (gameState a) = Status.success →
   status (gameState (handleAll es a)) = Status.success).
Proof.
  revert a. induction es as [|e es IH]; intros a; [by repeat split; auto|].
  simpl. destruct (IH (handle e a)) as (-> & -> & -> & -> & -> & Hs & Hk).
  clear IH.
  assert (puzzle (gameState (handle e a)) = puzzle (gameState a) ∧
          choices (gameState (handle e a)) = choices (gameState a) ∧
          imageUrl (gameState (handle e a)) = imageUrl (gameState a) ∧
          errorMessage (gameState (handle e a)) = errorMessage (gameState a) ∧
          difficulty (handle e a) = difficulty a ∧
          (status (gameState (handle e a)) = status (gameState a)
           ∨ status (gameState (handle e a)) = Status.success))
    as (-> & -> & -> & -> & -> & He).
  { destruct e as [s d|t|s|]; simpl.
    - destruct (handleDrop_cases s d a) as [->| ->]; by repeat split; auto.
    - rewrite handleChoiceClick_gameState. repeat split; auto.
      unfold handleChoiceClick. destruct (isUsed _ _); [done|].
      by destruct (decide _).
    - destruct (handleSlotClick_cases s a) as [->|[[t ->]|[_ ->]]];
        by repeat split; auto.
    - destruct (checkAnswer_cases a) as [->|[->| ->]]; by repeat split; auto. }
  do 5 (split; [done|]). split.
  - destruct Hs as [->|Hs]; [done|by right].
  - intros Ha. destruct He as [He|He]; apply Hk; congruence.
Qed.

(** The tile that is selected is in no slot. *)
Lemma removeLetter_keeps_unused s t a :
  (∀ k, userAnswers (gameState a) !! k ≠ Some t) →
  ∀ k, userAnswers (gameState (removeLetter s a)) !! k ≠ Some t.
Proof.
  intros Hun k. rewrite removeLetter_lookup. by destruct (decide _).
Qed.

Lemma handleAll_keeps_consistent (es : list Event) (a : App) :
  single_slot (userAnswers (gameState a)) →
  (∀ t k, selectedChoiceId a = Some t →
          userAnswers (gameState a) !! k ≠ Some t) →
  single_slot (userAnswers (gameState (handleAll es a))) ∧
  (∀ t k, selectedChoiceId (handleAll es a) = Some t →
          userAnswers (gameState (handleAll es a)) !! k ≠ Some t).
Proof.
  revert a. induction es as [|e es IH]; intros a Hone Hsel; [done|].
  simpl. apply IH; destruct e as [s d|t|s|]; simpl.
  - destruct (handleDrop_cases s d a) as [->| ->];
      [done|by apply placeLetter_single_slot].
  - by rewrite handleChoiceClick_gameState.
  - destruct (handleSlotClick_cases s a) as [->|[[t ->]|[_ ->]]];
      [done|by apply placeLetter_single_slot|by apply removeLetter_single_slot].
  - by destruct (checkAnswer_cases a) as [->|[->| ->]].
  - by destruct (handleDrop_cases s d a) as [->| ->].
  - rewrite handleChoiceClick_gameState. intros t' k.
    unfold handleChoiceClick. destruct (isUsed t (gameState a)) eqn:Hu.
    + apply Hsel.
    + destruct (decide _); simpl; [done|]. intros [= <-].
      by apply isUsed_false_iff.
  - destruct (handleSlotClick_cases s a) as [->|[[t ->]|[_ ->]]];
      [done|done|].
    intros t k Ht. apply removeLetter_keeps_unused. intros k'.
    by apply Hsel.
  - by destruct (checkAnswer_cases a) as [->|[->| ->]].
Qed.

Lemma handle_status e a :
  status (gameState (handle e a)) = status (gameState a)
  ∨ (status (gameState (handle e a)) = Status.success ∧
     is_Some (puzzle (gameState a))).
Proof.
  destruct e as [s d|t|s|]; simpl.
  - by destruct (handleDrop_cases s d a) as [->| ->]; left.
  - rewrite handleChoiceClick_gameState. by left.
  - by destruct (handleSlotClick_cases s a) as [->|[[t ->]|[_ ->]]]; left.
  - unfold checkAnswer. destruct (puzzle (gameState a)) as [p|]; [|by left].
    destruct (allFilled _ _); simpl; [|by left].
    destruct (isCorrect _ _); [right|by left]. by split.
Qed.

Lemma session_step_ok ALPHABET e a :
  session_ok a → session_ok (session_step ALPHABET e a).
Proof.
  intros (Hp & Herr & Hone & Hsel).
  destruct e as [|r draw now shuffle|url| |d|e]; simpl.
  - split; [by intros [?|?]|]. split; [done|].
    split; [apply single_slot_empty|done].
  - destruct r as [p|]; simpl.
    + split; [by eexists|]. split; [done|].
      split; [apply single_slot_empty|]. by intros t k _.
    + split; [by intros [?|?]|]. done.
  - unfold imageResolved. by destruct (truthy url).
  - split; [by intros [?|?]|]. done.
  - done.
  - destruct (handleAll_keeps_round [e] a) as (Hpz & _ & _ & Hem & _).
    destruct (handleAll_keeps_consistent [e] a Hone Hsel) as [Hone' Hsel'].
    simpl in Hpz, Hem, Hone', Hsel'.
    split; [|split; [|done]].
    + rewrite Hpz. destruct (handle_status e a) as [->|[_ ?]]; [done|].
      done.
    + rewrite Hem. destruct (handle_status e a) as [->|[-> _]]; done.
Qed.

(** X6. At every moment of a session, whatever the order of button
    clicks, events of play and arrivals of puzzles and illustrations: a
    puzzle is loaded whenever the status is [playing] or [success] (the
    game screen always has a puzzle to show), the error message is set
    whenever the status is [error], no tile is in two slots, and the
    selected tile is in no slot. *)
Theorem session_invariant (ALPHABET : string) (es : list SessionEvent) :
  session_ok (session ALPHABET es initialApp).
Proof.
  assert (∀ a, session_ok a → session_ok (session ALPHABET es a)) as Hgen.
  { induction es as [|e es IH]; intros a Ha; [done|].
    simpl. by apply IH, session_step_ok. }
  apply Hgen. split; [by intros [?|?]|]. split; [done|].
  split; [apply single_slot_empty|done].
Qed.
